(** * jotai-learn, Day 1: atom descriptors and the store entry points

    A shallow embedding of [src-new/vanilla/atom.ts] (the [atom] factory,
    [defaultRead], [defaultWrite], the [toString] method and the module
    counter [keyCount]), of [src-new/vanilla/store.ts] ([Store],
    [createStore], [getDefaultStore]) and of [src-new/react.ts] (the hook
    placeholders).

    JavaScript objects are references: an atom descriptor is allocated by
    [atom] and lives in a heap, [debugLabel] is a property assigned on it
    afterwards, and closures capture descriptors by reference.  The model
    therefore threads a [World] (the module variable [keyCount] and the
    heap of descriptors) through every operation. *)

From Stdlib Require Import List String Ascii Bool NArith ZArith Lia.
From Stdlib Require Import DecimalString DecimalN.
Import ListNotations.

Set Implicit Arguments.
Local Open Scope string_scope.

(** ** Errors and completions *)

(** The only error objects the sources build are [new Error(message)]. *)
Record JsError : Type := Error { message : string }.

(** A call either returns or throws. *)
Inductive Completion (A : Type) : Type :=
| Normal (a : A)
| Throw (e : JsError).

Arguments Normal {A} a.
Arguments Throw {A} e.

(** A reference to a heap-allocated descriptor: its allocation index. *)
Definition Ref : Type := nat.

Section Vanilla.

(** [Fn]: the function values (closures) that callers hand to the library.
    [Other]: every remaining non-callable value (strings, plain objects,
    ...).  [Private]: memory owned by whoever implements the accessor
    functions; the library itself never touches it. *)
Variables Fn Other Private : Type.

(** ** Values
    [typeof v === 'function'] holds exactly for [VFun].  Numbers are the
    integer-valued ones, plus NaN. *)
Inductive Value : Type :=
| VUndefined
| VNull
| VBool (b : bool)
| VNum (z : Z)
| VNaN
| VOther (o : Other)
| VFun (f : Fn).

Definition typeof_function (v : Value) : bool :=
  match v with
  | VFun _ => true
  | _ => false
  end.

(** ** Computations against the accessors
    A read function receives [get], a write function [get] and [set].
    The body of such a function is the tree of its accessor calls:
    [GetE a k] is [get(a)] followed by [k] on the answer, [SetE a args k]
    is [set(a, ...args)]. *)
Inductive Comp : Type :=
| Ret (v : Value)
| Raise (e : JsError)
| GetE (a : Ref) (k : Value -> Comp)
| SetE (a : Ref) (args : list Value) (k : Value -> Comp).

Fixpoint bind (c : Comp) (f : Value -> Comp) : Comp :=
  match c with
  | Ret v => f v
  | Raise e => Raise e
  | GetE a k => GetE a (fun v => bind (k v) f)
  | SetE a args k => SetE a args (fun v => bind (k v) f)
  end.

(** What a caller-supplied closure does when it is called.  [args] are
    its value arguments: none for a read function [(get, options) => ...],
    the external arguments for a write function [(get, set, ...args) =>
    ...], the previous value for an updater [prev => ...].  Its calls of
    the accessors it was given or has captured are the requests above. *)
Variable call : Fn -> list Value -> Comp.

(** ** Descriptors *)

Inductive ReadImpl : Type :=
| DefaultRead
| ReadFn (f : Fn).

Inductive WriteImpl : Type :=
| DefaultWrite
| WriteFn (f : Fn).

(** The [config] object.  [key] is the constant captured by its
    [toString] method; the other fields are properties, absent ([None])
    until assigned.  ([atom] assigns none of the further optional
    properties of the interfaces: [debugPrivate], [INTERNAL_onInit],
    [onMount].) *)
Record AtomConfig : Type := mkConfig {
  key : string;
  init : option Value;
  read : option ReadImpl;
  write : option WriteImpl;
  debugLabel : option string
}.

Record World : Type := mkWorld {
  keyCount : N;
  heap : list AtomConfig;
  private : Private
}.

(** Programs: global state and exceptions. *)
Definition Prog (A : Type) : Type := World -> Completion A * World.

Definition ret {A} (a : A) : Prog A := fun w => (Normal a, w).

Definition throw_new_Error {A} (msg : string) : Prog A :=
  fun w => (Throw (Error msg), w).

Definition pbind {A B} (m : Prog A) (f : A -> Prog B) : Prog B :=
  fun w =>
    match m w with
    | (Normal a, w') => f a w'
    | (Throw e, w') => (Throw e, w')
    end.

Definition lookup (a : Ref) (w : World) : option AtomConfig :=
  nth_error (heap w) a.

(** ** [let keyCount = 0] and [++keyCount]
    [keyCount] is a JavaScript number.  Counting up from 0 is exact up to
    2^53; there [2^53 + 1] rounds back to [2^53] and the counter stays. *)
Definition MAX_EXACT : N := 9007199254740992.

Definition increment (n : N) : N :=
  if (n <? MAX_EXACT)%N then (n + 1)%N else n.

(** Template literal [`atom${n}`]: decimal digits of the counter. *)
Definition decimal (n : N) : string :=
  NilEmpty.string_of_uint (N.to_uint n).

Definition atomKey (n : N) : string := "atom" ++ decimal n.

(** ** [atom(read, write)] *)

(** [const config = { toString() {...} }] *)
Definition newConfig (k : string) : AtomConfig :=
  mkConfig k None None None None.

(** [if (typeof read === 'function') {...} else {...}] *)
Definition installRead (read : Value) (c : AtomConfig) : AtomConfig :=
  match read with
  | VFun f =>
      mkConfig (key c) (init c) (Some (ReadFn f)) (write c) (debugLabel c)
  | _ =>
      mkConfig (key c) (Some read) (Some DefaultRead) (Some DefaultWrite)
               (debugLabel c)
  end.

(** [if (write) { config.write = write }] *)
Definition installWrite (write : option Fn) (c : AtomConfig) : AtomConfig :=
  match write with
  | Some f =>
      mkConfig (key c) (init c) (read c) (Some (WriteFn f)) (debugLabel c)
  | None => c
  end.

(** An omitted first argument is [VUndefined].  The new object is placed
    at the end of the heap and its reference returned. *)
Definition atom (read : Value) (write : option Fn) (w : World)
  : Ref * World :=
  let n := increment (keyCount w) in
  let config :=
    installWrite write (installRead read (newConfig (atomKey n))) in
  (List.length (heap w), mkWorld n (heap w ++ [config])%list (private w)).

(** The descriptor [atom] builds, before it is placed in the heap. *)
Definition built (read : Value) (write : option Fn) (w : World)
  : AtomConfig :=
  installWrite write
    (installRead read (newConfig (atomKey (increment (keyCount w))))).

(** ** [defaultRead] and [defaultWrite] ([this] is the descriptor) *)

Definition defaultRead (this : Ref) : Comp :=
  GetE this Ret.

Definition defaultWrite (this : Ref) (arg : Value) : Comp :=
  match arg with
  | VFun g =>
      GetE this (fun prev =>
        bind (call g [prev]) (fun next => SetE this [next] Ret))
  | _ => SetE this [arg] Ret
  end.

(** ** [toString]
    [mode] is [import.meta.env?.MODE]; [this.debugLabel] is truthy when it
    is a non-empty string. *)
Definition notProduction (mode : option string) : bool :=
  match mode with
  | Some m => negb (String.eqb m "production")
  | None => true
  end.

Definition toString (mode : option string) (c : AtomConfig) : string :=
  match debugLabel c with
  | Some l =>
      if notProduction mode && negb (String.eqb l "")
      then key c ++ ":" ++ l
      else key c
  | None => key c
  end.

(** ** Calling a descriptor's methods
    [config.read(get, options)] and [config.write(get, set, ...args)] with
    [this] bound to the descriptor; [None] when the descriptor or the
    method is absent. *)
Definition readOf (a : Ref) (w : World) : option Comp :=
  match lookup a w with
  | Some c =>
      match read c with
      | Some DefaultRead => Some (defaultRead a)
      | Some (ReadFn f) => Some (call f [])
      | None => None
      end
  | None => None
  end.

Definition writeOf (a : Ref) (args : list Value) (w : World) : option Comp :=
  match lookup a w with
  | Some c =>
      match write c with
      | Some DefaultWrite => Some (defaultWrite a (nth 0 args VUndefined))
      | Some (WriteFn f) => Some (call f args)
      | None => None
      end
  | None => None
  end.

(** [config.debugLabel = l], the assignment a caller makes after [atom]
    returned.  References come from [atom] only, so an index outside the
    heap does not occur; the heap is left as it is there. *)
Definition withLabel (l : option string) (c : AtomConfig) : AtomConfig :=
  mkConfig (key c) (init c) (read c) (write c) l.

Fixpoint updateAt (a : nat) (f : AtomConfig -> AtomConfig)
         (h : list AtomConfig) : list AtomConfig :=
  match h, a with
  | [], _ => []
  | c :: t, O => f c :: t
  | c :: t, S a' => c :: updateAt a' f t
  end.

Definition assignDebugLabel (a : Ref) (l : option string) (w : World)
  : World :=
  mkWorld (keyCount w) (updateAt a (withLabel l) (heap w)) (private w).

(** ** Running a computation against accessor functions
    [Getter] and [Setter] are the accessor types the sources declare. *)
Definition Getter : Type := Ref -> Prog Value.
Definition Setter : Type := Ref -> list Value -> Prog Value.

Fixpoint run (get : Getter) (set : Setter) (c : Comp) : Prog Value :=
  match c with
  | Ret v => ret v
  | Raise e => fun w => (Throw e, w)
  | GetE a k => pbind (get a) (fun v => run get set (k v))
  | SetE a args k => pbind (set a args) (fun v => run get set (k v))
  end.

(** The accessor calls a computation makes, in order. *)
Inductive Access : Type :=
| DidGet (a : Ref)
| DidSet (a : Ref) (args : list Value).

Fixpoint accesses (get : Getter) (set : Setter) (c : Comp) (w : World)
  : list Access :=
  match c with
  | Ret _ | Raise _ => []
  | GetE a k =>
      DidGet a ::
      match get a w with
      | (Normal v, w') => accesses get set (k v) w'
      | (Throw _, _) => []
      end
  | SetE a args k =>
      DidSet a args ::
      match set a args w with
      | (Normal v, w') => accesses get set (k v) w'
      | (Throw _, _) => []
      end
  end.


(** ** [store.ts] *)

(** [interface Store]: [sub] answers with the unsubscribe function. *)
Record Store : Type := mkStore {
  get : Ref -> Prog Value;
  set : Ref -> list Value -> Prog Value;
  sub : Ref -> Fn -> Prog (Prog unit)
}.

Definition createStore : Prog Store :=
  throw_new_Error "createStore will be implemented in Day 2".

Definition getDefaultStore : Prog Store :=
  throw_new_Error "getDefaultStore will be implemented in Day 2".

(** ** [react.ts] *)

Definition Provider (children : Value) : Prog Value :=
  throw_new_Error "Provider will be implemented in Day 5".

Definition useStore : Prog Store :=
  throw_new_Error "useStore will be implemented in Day 5".

Definition useAtomValue (a : Ref) : Prog Value :=
  throw_new_Error "useAtomValue will be implemented in Day 5".

Definition useSetAtom (a : Ref) : Prog (list Value -> Prog Value) :=
  throw_new_Error "useSetAtom will be implemented in Day 5".

Definition useAtom (a : Ref) : Prog (Value * (list Value -> Prog Value)) :=
  throw_new_Error "useAtom will be implemented in Day 5".

(** ** The exported API ([index.ts], [vanilla.ts], [react.ts]) together
    with the two things a caller does with a descriptor directly. *)
Inductive ApiCall : Type :=
| CallAtom (read : Value) (write : option Fn)
| AssignDebugLabel (a : Ref) (l : option string)
| CallToString (mode : option string) (a : Ref)
| CallCreateStore
| CallGetDefaultStore
| CallProvider (children : Value)
| CallUseStore
| CallUseAtomValue (a : Ref)
| CallUseSetAtom (a : Ref)
| CallUseAtom (a : Ref).

Inductive ApiResult : Type :=
| GotAtom (a : Ref)
| GotStore (s : Store)
| GotValue (v : Value)
| GotString (s : option string)
| GotSetter (f : list Value -> Prog Value)
| GotPair (v : Value) (f : list Value -> Prog Value)
| GotNothing
| Thrown (e : JsError).

Definition outcome {A} (f : A -> ApiResult) (r : Completion A * World)
  : ApiResult * World :=
  match r with
  | (Normal a, w) => (f a, w)
  | (Throw e, w) => (Thrown e, w)
  end.

Definition exec (c : ApiCall) (w : World) : ApiResult * World :=
  match c with
  | CallAtom r wr => let (a, w') := atom r wr w in (GotAtom a, w')
  | AssignDebugLabel a l => (GotNothing, assignDebugLabel a l w)
  | CallToString mode a =>
      (GotString (option_map (toString mode) (lookup a w)), w)
  | CallCreateStore => outcome GotStore (createStore w)
  | CallGetDefaultStore => outcome GotStore (getDefaultStore w)
  | CallProvider ch => outcome GotValue (Provider ch w)
  | CallUseStore => outcome GotStore (useStore w)
  | CallUseAtomValue a => outcome GotValue (useAtomValue a w)
  | CallUseSetAtom a => outcome GotSetter (useSetAtom a w)
  | CallUseAtom a => outcome (fun p => GotPair (fst p) (snd p)) (useAtom a w)
  end.

Fixpoint execAll (cs : list ApiCall) (w : World) : list ApiResult * World :=
  match cs with
  | [] => ([], w)
  | c :: rest =>
      let (r, w1) := exec c w in
      let (rs, w2) := execAll rest w1 in
      (r :: rs, w2)
  end.

Definition isStore (r : ApiResult) : bool :=
  match r with
  | GotStore _ => true
  | _ => false
  end.

(** ** Observations that do not involve the debug label
    Two worlds are the same up to labels when erasing every [debugLabel]
    makes them equal.  A label-only call is an assignment to [debugLabel]
    or a [toString] rendering. *)
Definition eraseLabels (w : World) : World :=
  mkWorld (keyCount w) (map (withLabel None) (heap w)) (private w).

Definition sameUpToLabels (w1 w2 : World) : Prop :=
  eraseLabels w1 = eraseLabels w2.

Definition labelOnly (c : ApiCall) : bool :=
  match c with
  | AssignDebugLabel _ _ | CallToString _ _ => true
  | _ => false
  end.

Definition withoutLabels (cs : list ApiCall) : list ApiCall :=
  filter (fun c => negb (labelOnly c)) cs.

(** The results of all the other calls of a run, in order. *)
Fixpoint observed (cs : list ApiCall) (w : World) : list ApiResult :=
  match cs with
  | [] => []
  | c :: rest =>
      let (r, w1) := exec c w in
      if labelOnly c then observed rest w1 else r :: observed rest w1
  end.

End Vanilla.

Arguments VUndefined {Fn Other}.
Arguments VNull {Fn Other}.
Arguments VBool {Fn Other} b.
Arguments VNum {Fn Other} z.
Arguments VNaN {Fn Other}.
Arguments VOther {Fn} [Other] o.
Arguments VFun [Fn] {Other} f.
Arguments DefaultRead {Fn}.
Arguments DefaultWrite {Fn}.
Arguments Raise {Fn Other} e.
Arguments GotNothing {Fn Other Private}.
Arguments Thrown {Fn Other Private} e.
Arguments GotAtom {Fn Other Private} a.
Arguments GotString {Fn Other Private} s.
Arguments defaultRead {Fn Other} this.
Arguments createStore {Fn Other Private}.
Arguments AssignDebugLabel {Fn Other} a l.
Arguments CallToString {Fn Other} mode a.
Arguments CallCreateStore {Fn Other}.
Arguments CallGetDefaultStore {Fn Other}.
Arguments CallUseStore {Fn Other}.
Arguments CallUseAtomValue {Fn Other} a.
Arguments CallUseSetAtom {Fn Other} a.
Arguments CallUseAtom {Fn Other} a.
Arguments DidGet {Fn Other} a.
Arguments newConfig {Fn Other} k.
Arguments getDefaultStore {Fn Other Private}.
Arguments useStore {Fn Other Private}.

Declare Scope prog_scope.
Delimit Scope prog_scope with prog.
Notation "x <- m ;; k" := (pbind m (fun x => k))
  (at level 61, m at next level, right associativity) : prog_scope.

(** ** Concrete callers

    The closures used by the scenarios below, with the descriptors they
    capture held by reference. *)
Inductive Closure : Type :=
| TimesCell (a : Ref) (k : Z)   (* get => get(a) * k *)
| ReadsCell (a : Ref)           (* get => get(a) *)
| Scale (k : Z).                (* prev => prev * k *)

(** The numbers that [VNum] does not write: the two infinities and
    negative zero.  (The scenarios use no strings or plain objects as
    values.) *)
Inductive Special : Type :=
| PlusInfinity
| MinusInfinity
| MinusZero.

(** [VNum z] is the number the literal [z] denotes: the double nearest
    to [z]. *)
Definition JsValue : Type := Value Closure Special.

(** The JavaScript numbers (IEEE-754 doubles) of integer value: NaN, an
    infinity, or a finite one given by sign and magnitude.  They are
    closed under [*]. *)
Inductive JsNumber : Type :=
| NaN
| Infinite (negative : bool)
| Finite (negative : bool) (magnitude : Z).

(** A magnitude rounded to the 53 bits of a double's significand, to
    nearest and ties to even; [None] when the result is beyond the largest
    double. *)
Definition roundMagnitude (m : Z) : option Z :=
  if (m <? 2 ^ 53)%Z then Some m
  else
    let e := (Z.log2 m - 52)%Z in
    let q := (m / 2 ^ e)%Z in
    let r := (m mod 2 ^ e)%Z in
    let half := (2 ^ (e - 1))%Z in
    let q' :=
      if (r <? half)%Z then q
      else if (half <? r)%Z then (q + 1)%Z
      else if Z.even q then q else (q + 1)%Z in
    if (q' * 2 ^ e <? 2 ^ 1024)%Z then Some (q' * 2 ^ e)%Z else None.

Definition rounded (negative : bool) (m : Z) : JsNumber :=
  match roundMagnitude m with
  | Some r => Finite negative r
  | None => Infinite negative
  end.

(** ToNumber.  (A function converts through its source text, which is no
    numeric literal.) *)
Definition toNumber (v : JsValue) : JsNumber :=
  match v with
  | VUndefined => NaN
  | VNull => Finite false 0
  | VBool b => Finite false (if b then 1 else 0)
  | VNum z => rounded (z <? 0)%Z (Z.abs z)
  | VNaN => NaN
  | VOther PlusInfinity => Infinite false
  | VOther MinusInfinity => Infinite true
  | VOther MinusZero => Finite true 0
  | VFun _ => NaN
  end.

Definition ofNumber (x : JsNumber) : JsValue :=
  match x with
  | NaN => VNaN
  | Infinite false => VOther PlusInfinity
  | Infinite true => VOther MinusInfinity
  | Finite s m =>
      if (m =? 0)%Z then (if s then VOther MinusZero else VNum 0)
      else VNum (if s then - m else m)
  end.

(** Multiplication of doubles: the exact product, rounded. *)
Definition multiply (x y : JsNumber) : JsNumber :=
  match x, y with
  | NaN, _ | _, NaN => NaN
  | Infinite s, Infinite t => Infinite (xorb s t)
  | Infinite s, Finite t m | Finite t m, Infinite s =>
      if (m =? 0)%Z then NaN else Infinite (xorb s t)
  | Finite s a, Finite t b => rounded (xorb s t) (a * b)
  end.

(** The [*] operator. *)
Definition times (x y : JsValue) : JsValue :=
  ofNumber (multiply (toNumber x) (toNumber y)).

Definition closureCall (f : Closure) (args : list JsValue)
  : Comp Closure Special :=
  match f with
  | TimesCell a k => GetE a (fun v => Ret (times v (VNum k)))
  | ReadsCell a => GetE a (@Ret _ _)
  | Scale k => Ret (times (nth 0 args VUndefined) (VNum k))
  end.

(** A plain memory of cell values, standing in for the accessor functions a
    store would pass to [read] and [write]: [memSet] records the value,
    [memGet] answers the last recorded one and, before any, the
    descriptor's [init]. *)
Definition Memory : Type := list (Ref * JsValue).

Definition JsWorld : Type := World Closure Special Memory.

Fixpoint recall (a : Ref) (m : Memory) : option JsValue :=
  match m with
  | [] => None
  | (b, v) :: rest => if Nat.eqb a b then Some v else recall a rest
  end.

Definition memGet : Getter Closure Special Memory :=
  fun a w =>
    match recall a (private w) with
    | Some v => (Normal v, w)
    | None =>
        match lookup a w with
        | Some c =>
            match init c with
            | Some v => (Normal v, w)
            | None => (Normal VUndefined, w)
            end
        | None => (Normal VUndefined, w)
        end
    end.

Definition memSet : Setter Closure Special Memory :=
  fun a args w =>
    (Normal VUndefined,
     mkWorld (keyCount w) (heap w) ((a, nth 0 args VUndefined) :: private w)).

(** The module as loaded: [let keyCount = 0], nothing allocated. *)
Definition freshWorld : JsWorld := mkWorld 0 [] [].

(** [atom] as a program step. *)
Definition newAtom (read : JsValue) (write : option Closure)
  : Prog Closure Special Memory Ref :=
  fun w => let (a, w') := atom read write w in (Normal a, w').

Local Open Scope prog_scope.

(** ** The scenarios of the specification, as programs against the API *)


(** [P = atom(init); store.set(P, v); store.get(P)] *)
Definition scenarioWriteRead (init v : JsValue)
  : Prog Closure Special Memory JsValue :=
  P <- newAtom init None ;;
  store <- createStore ;;
  _ <- set store P [v] ;;
  get store P.

(** [P = atom(1); D = atom(get => get(P)); store.set(D, 7)] *)
Definition scenarioWriteReadOnly : Prog Closure Special Memory JsValue :=
  P <- newAtom (VNum 1) None ;;
  D <- newAtom (VFun (ReadsCell P)) None ;;
  store <- createStore ;;
  set store D [VNum 7].

(** [const X = atom(get => get(X)); store.get(X)] *)
Definition scenarioSelfRead : Prog Closure Special Memory JsValue :=
  X <- (fun w => newAtom (VFun (ReadsCell (List.length (heap w)))) None w) ;;
  store <- createStore ;;
  get store X.

(** [X = atom(get => get(Y)); Y = atom(get => get(X)); store.get(X)] *)
Definition scenarioMutualRead : Prog Closure Special Memory JsValue :=
  X <- (fun w =>
          newAtom (VFun (ReadsCell (S (List.length (heap w))))) None w) ;;
  Y <- newAtom (VFun (ReadsCell X)) None ;;
  store <- createStore ;;
  get store X.


Local Close Scope prog_scope.


(** ** Worlds the API builds from a freshly loaded module *)

Section Reachable.

Variables Fn Other Private : Type.

(** The module as loaded, for any private memory: [let keyCount = 0] and
    no descriptor allocated. *)
Definition loaded (p : Private) : World Fn Other Private := mkWorld 0 [] p.

(** The value [++keyCount] had at the call that allocated index [i]. *)
Definition keyNumber (i : nat) : N := N.min (N.of_nat (S i)) MAX_EXACT.

(** The two shapes [atom] gives a descriptor: with [init], [defaultRead]
    and some [write]; or without [init] and with a caller's read
    function. *)
Definition wellFormed (c : AtomConfig Fn Other) : Prop :=
  match init c with
  | Some _ => read c = Some DefaultRead /\ write c <> None
  | None => exists f, read c = Some (ReadFn f)
  end.

Definition inOrder (w : World Fn Other Private) : Prop :=
  keyCount w = N.min (N.of_nat (List.length (heap w))) MAX_EXACT /\
  forall i c, lookup i w = Some c ->
              key c = atomKey (keyNumber i) /\ wellFormed c.

(** The calls that write to the world: [atom] and the assignment to
    [debugLabel].  The others only read it or throw. *)
Definition changesState (c : ApiCall Fn Other) : bool :=
  match c with
  | CallAtom _ _ | AssignDebugLabel _ _ => true
  | _ => false
  end.

Definition isThrown (r : ApiResult Fn Other Private) : bool :=
  match r with
  | Thrown _ => true
  | _ => false
  end.

(** A suffix [toString] may put after the key: nothing, or a colon and
    the label. *)
Definition labelSuffix (s : string) : Prop :=
  match s with
  | EmptyString => True
  | String c _ => c = ":"%char
  end.

End Reachable.

(** * Properties *)

(** ** The descriptor returned by [atom] *)

Section AtomFacts.

Variables Fn Other Private : Type.

Local Abbreviation value := (Value Fn Other).
Local Abbreviation world := (World Fn Other Private).

Lemma atom_ref (r : value) (wr : option Fn) (w : world) :
  fst (atom r wr w) = List.length (heap w).
Proof. reflexivity. Qed.

Lemma atom_lookup (r : value) (wr : option Fn) (w : world) :
  lookup (fst (atom r wr w)) (snd (atom r wr w))
  = Some (built r wr w).
Proof.
  unfold lookup, atom; simpl.
  rewrite nth_error_app2 by lia.
  now rewrite Nat.sub_diag.
Qed.

Lemma atom_keeps (r : value) (wr : option Fn) (w : world) (a : Ref) :
  a < List.length (heap w) ->
  lookup a (snd (atom r wr w)) = lookup a w.
Proof.
  intros Ha. unfold lookup, atom; simpl.
  now rewrite nth_error_app1.
Qed.

Lemma atom_keyCount (r : value) (wr : option Fn) (w : world) :
  keyCount (snd (atom r wr w)) = increment (keyCount w).
Proof. reflexivity. Qed.

Lemma built_key (r : value) (wr : option Fn) (w : world) :
  key (built r wr w) = atomKey (increment (keyCount w)).
Proof. unfold built; destruct wr, r; reflexivity. Qed.

Lemma built_init (r : value) (wr : option Fn) (w : world) :
  init (built r wr w)
  = if typeof_function r then None else Some r.
Proof. unfold built; destruct wr, r; reflexivity. Qed.

Lemma built_read (r : value) (wr : option Fn) (w : world) :
  read (built r wr w)
  = match r with
    | VFun f => Some (ReadFn f)
    | _ => Some DefaultRead
    end.
Proof. unfold built; destruct wr, r; reflexivity. Qed.

Lemma built_write (r : value) (wr : option Fn) (w : world) :
  write (built r wr w)
  = match wr with
    | Some f => Some (WriteFn f)
    | None => if typeof_function r then None else Some DefaultWrite
    end.
Proof. unfold built; destruct wr, r; reflexivity. Qed.

(** C2.  For every call [atom(r, wr)], the returned descriptor has the
    [init] property exactly when the first argument [r] is not a function.
    In that case [init] holds [r], the [else] branch has installed
    [defaultRead] and [defaultWrite], and the returned descriptor keeps
    [defaultRead] (and [defaultWrite] unless an explicit write argument
    replaced it).  When [r] is a function [f], the descriptor has no
    [init] and its [read] is [f] itself. *)
Theorem atom_init_iff_not_function (r : value) (wr : option Fn)
        (w : world) :
  exists c,
    lookup (fst (atom r wr w)) (snd (atom r wr w)) = Some c /\
    (init c <> None <-> typeof_function r = false) /\
    (typeof_function r = false ->
       init c = Some r /\
       read (installRead r (newConfig (atomKey (increment (keyCount w)))))
         = Some DefaultRead /\
       write (installRead r (newConfig (atomKey (increment (keyCount w)))))
         = Some DefaultWrite /\
       read c = Some DefaultRead /\
       write c
         = Some (match wr with
                 | Some g => WriteFn g
                 | None => DefaultWrite
                 end)) /\
    (forall f, r = VFun f ->
       init c = None /\ read c = Some (ReadFn f)).
Proof.
  exists (built r wr w). split; [apply atom_lookup|].
  rewrite built_init, built_read, built_write.
  split; [|split].
  - destruct (typeof_function r); split; congruence.
  - intros Hnf. rewrite Hnf.
    destruct r; try discriminate; destruct wr; repeat split; reflexivity.
  - intros f ->. split; reflexivity.
Qed.

(** C7.  For every call [atom(r, wr)], the returned descriptor has a
    [write] function exactly when an explicit write argument [wr] was
    supplied or the first argument [r] is not a function; an explicit
    write argument is the one installed (it replaces [defaultWrite]), and
    a descriptor built from a read function alone has no [write]. *)
Theorem atom_write_iff (r : value) (wr : option Fn) (w : world) :
  exists c,
    lookup (fst (atom r wr w)) (snd (atom r wr w)) = Some c /\
    (write c <> None
       <-> (wr <> None \/ typeof_function r = false)) /\
    (forall g, wr = Some g -> write c = Some (WriteFn g)) /\
    (wr = None -> typeof_function r = false ->
       write c = Some DefaultWrite) /\
    (forall f, r = VFun f -> wr = None ->
       write c = None /\ read c = Some (ReadFn f)).
Proof.
  exists (built r wr w). split; [apply atom_lookup|].
  rewrite built_write, built_read.
  repeat split.
  - intros H. destruct wr; [left; congruence|].
    right. destruct (typeof_function r); congruence.
  - intros [H|H]; destruct wr; try congruence.
    rewrite H. congruence.
  - intros g ->. reflexivity.
  - intros -> ->. reflexivity.
  - subst. reflexivity.
  - subst. reflexivity.
Qed.

End AtomFacts.

(** ** The key counter *)

Lemma decimal_inj (n m : N) : decimal n = decimal m -> n = m.
Proof.
  unfold decimal. intros H.
  apply DecimalN.Unsigned.to_uint_inj.
  assert (E : Some (N.to_uint n) = Some (N.to_uint m)).
  { rewrite <- (NilEmpty.usu (N.to_uint n)), <- (NilEmpty.usu (N.to_uint m)).
    now rewrite H. }
  now inversion E.
Qed.

Lemma atomKey_inj (n m : N) : atomKey n = atomKey m -> n = m.
Proof.
  unfold atomKey. simpl. intros H. apply decimal_inj. now inversion H.
Qed.



(** ** Heap updates *)

Section HeapFacts.

Variables Fn Other : Type.

Local Abbreviation config := (AtomConfig Fn Other).

Lemma updateAt_length (a : nat) (f : config -> config) (h : list config) :
  List.length (updateAt a f h) = List.length h.
Proof.
  revert a. induction h as [|c t IH]; intros [|a]; simpl; auto.
Qed.

Lemma updateAt_same (a : nat) (f : config -> config) (h : list config) :
  nth_error (updateAt a f h) a = option_map f (nth_error h a).
Proof.
  revert a. induction h as [|c t IH]; intros [|a]; simpl; auto.
Qed.

Lemma updateAt_other (a b : nat) (f : config -> config) (h : list config) :
  a <> b -> nth_error (updateAt a f h) b = nth_error h b.
Proof.
  revert a b. induction h as [|c t IH]; intros [|a] [|b] Hab; simpl; auto.
  congruence.
Qed.

Lemma withLabel_erase (l : option string) (c : config) :
  withLabel None (withLabel l c) = withLabel None c.
Proof. reflexivity. Qed.

Lemma updateAt_erase (a : nat) (l : option string) (h : list config) :
  map (withLabel None) (updateAt a (withLabel l) h) = map (withLabel None) h.
Proof.
  revert a. induction h as [|c t IH]; intros [|a]; simpl; auto.
  now rewrite IH.
Qed.

End HeapFacts.

(** ** What the API calls do to the world *)

Section ApiFacts.

Variables Fn Other Private : Type.

Local Abbreviation value := (Value Fn Other).
Local Abbreviation world := (World Fn Other Private).
Local Abbreviation apicall := (ApiCall Fn Other).


Lemma execAll_cons (c : apicall) (cs : list apicall) (w : world) :
  snd (execAll (c :: cs) w) = snd (execAll cs (snd (exec c w))).
Proof.
  simpl. destruct (exec c w) as [r w1]. simpl.
  now destruct (execAll cs w1).
Qed.


(** Every call keeps the descriptors already allocated, up to their
    [debugLabel]. *)
Lemma exec_keeps (c : apicall) (w : world) (a : Ref) (d : AtomConfig Fn Other) :
  lookup a w = Some d ->
  exists d', lookup a (snd (exec c w)) = Some d' /\
             withLabel None d' = withLabel None d.
Proof.
  intros Hd.
  assert (Ha : a < List.length (heap w)).
  { apply nth_error_Some. unfold lookup in Hd. congruence. }
  destruct c as [r wr|b l| | | | | | | |]; simpl;
    try (exists d; split; [exact Hd | reflexivity]).
  - exists d. split; [|reflexivity].
    rewrite <- Hd.
    exact (atom_keeps r wr w Ha).
  - unfold lookup, assignDebugLabel; simpl.
    destruct (Nat.eq_dec b a) as [->|Hne].
    + rewrite updateAt_same. unfold lookup in Hd. rewrite Hd. simpl.
      eexists; split; [reflexivity | apply withLabel_erase].
    + rewrite updateAt_other by exact Hne.
      exists d. split; [exact Hd | reflexivity].
Qed.

Lemma execAll_keeps (cs : list apicall) (w : world) (a : Ref)
      (d : AtomConfig Fn Other) :
  lookup a w = Some d ->
  exists d', lookup a (snd (execAll cs w)) = Some d' /\
             withLabel None d' = withLabel None d.
Proof.
  revert w d. induction cs as [|c cs IH]; intros w d Hd.
  - exists d. split; [exact Hd | reflexivity].
  - rewrite execAll_cons.
    destruct (exec_keeps c w a Hd) as (d1 & H1 & E1).
    destruct (IH _ _ H1) as (d2 & H2 & E2).
    exists d2. split; [exact H2 | congruence].
Qed.



End ApiFacts.

(** ** The store entry points *)

Section StoreFacts.

Variables Fn Other Private : Type.

Local Abbreviation world := (World Fn Other Private).
Local Abbreviation store := (Store Fn Other Private).
Local Abbreviation prog := (Prog Fn Other Private).

Lemma exec_no_store (c : ApiCall Fn Other) (w : world) :
  isStore (fst (exec c w)) = false.
Proof. destruct c; reflexivity. Qed.

Lemma execAll_no_store (cs : list (ApiCall Fn Other)) (w : world) :
  existsb (@isStore Fn Other Private) (fst (execAll cs w)) = false.
Proof.
  revert w. induction cs as [|c cs IH]; intros w; [reflexivity|].
  simpl. pose proof (exec_no_store c w) as Hc.
  destruct (exec c w) as [r w1]. specialize (IH w1).
  destruct (execAll cs w1) as [rs w2]. simpl in *.
  now rewrite Hc, IH.
Qed.

(** C10.  Every call of [createStore] and every call of [getDefaultStore]
    throws an [Error] and leaves the world as it was; no sequence of calls
    of the exported API ever returns a [Store]; and whatever a caller
    would do with the store ([get], [set], [sub]) after [createStore] or
    [getDefaultStore] is never run. *)
Theorem store_constructors_throw :
  (forall w : world,
      createStore w
      = (Throw (Error "createStore will be implemented in Day 2"), w)) /\
  (forall w : world,
      getDefaultStore w
      = (Throw (Error "getDefaultStore will be implemented in Day 2"), w)) /\
  (forall (cs : list (ApiCall Fn Other)) (w : world),
      existsb (@isStore Fn Other Private) (fst (execAll cs w)) = false) /\
  (forall (A : Type) (use : store -> prog A) (w : world),
      pbind createStore use w
      = (Throw (Error "createStore will be implemented in Day 2"), w) /\
      pbind getDefaultStore use w
      = (Throw (Error "getDefaultStore will be implemented in Day 2"), w)).
Proof.
  repeat split; try reflexivity.
  apply execAll_no_store.
Qed.

End StoreFacts.

(** ** The debug label *)

Section LabelFacts.

Variables Fn Other Private : Type.
Variable call : Fn -> list (Value Fn Other) -> Comp Fn Other.

Local Abbreviation world := (World Fn Other Private).
Local Abbreviation apicall := (ApiCall Fn Other).

Lemma same_keyCount (w1 w2 : world) :
  sameUpToLabels w1 w2 -> keyCount w1 = keyCount w2.
Proof. intros H. now inversion H. Qed.

Lemma same_private (w1 w2 : world) :
  sameUpToLabels w1 w2 -> private w1 = private w2.
Proof. intros H. now inversion H. Qed.

Lemma same_heap (w1 w2 : world) :
  sameUpToLabels w1 w2 ->
  map (withLabel None) (heap w1) = map (withLabel None) (heap w2).
Proof. intros H. now inversion H. Qed.

Lemma same_length (w1 w2 : world) :
  sameUpToLabels w1 w2 -> List.length (heap w1) = List.length (heap w2).
Proof.
  intros H. apply same_heap in H.
  apply (f_equal (@List.length _)) in H.
  now rewrite !length_map in H.
Qed.

Lemma same_lookup (w1 w2 : world) (a : Ref) :
  sameUpToLabels w1 w2 ->
  option_map (withLabel None) (lookup a w1)
  = option_map (withLabel None) (lookup a w2).
Proof.
  intros H. apply same_heap in H. unfold lookup.
  now rewrite <- !nth_error_map, H.
Qed.

Lemma same_refl (w : world) : sameUpToLabels w w.
Proof. reflexivity. Qed.

Lemma same_sym (w1 w2 : world) : sameUpToLabels w1 w2 -> sameUpToLabels w2 w1.
Proof. unfold sameUpToLabels. congruence. Qed.

Lemma same_trans (w1 w2 w3 : world) :
  sameUpToLabels w1 w2 -> sameUpToLabels w2 w3 -> sameUpToLabels w1 w3.
Proof. unfold sameUpToLabels. congruence. Qed.

Lemma assign_same (a : Ref) (l : option string) (w : world) :
  sameUpToLabels (assignDebugLabel a l w) w.
Proof.
  unfold sameUpToLabels, eraseLabels, assignDebugLabel; simpl.
  now rewrite updateAt_erase.
Qed.

Lemma exec_labelOnly (c : apicall) (w : world) :
  labelOnly c = true -> sameUpToLabels (snd (exec c w)) w.
Proof.
  destruct c; simpl; try discriminate; intros _.
  - apply assign_same.
  - apply same_refl.
Qed.

Lemma atom_same (r : Value Fn Other) (wr : option Fn) (w1 w2 : world) :
  sameUpToLabels w1 w2 ->
  fst (atom r wr w1) = fst (atom r wr w2) /\
  sameUpToLabels (snd (atom r wr w1)) (snd (atom r wr w2)).
Proof.
  intros H. split.
  - rewrite !atom_ref. now apply same_length.
  - unfold sameUpToLabels, eraseLabels, atom; simpl.
    rewrite !map_app, (same_heap H), (same_keyCount H), (same_private H).
    reflexivity.
Qed.

Lemma exec_same (c : apicall) (w1 w2 : world) :
  sameUpToLabels w1 w2 -> labelOnly c = false ->
  fst (exec c w1) = fst (exec c w2) /\
  sameUpToLabels (snd (exec c w1)) (snd (exec c w2)).
Proof.
  intros H Hc.
  destruct c as [r wr|b l|m b| | | | | | |]; simpl in *;
    try discriminate; try (split; [reflexivity | exact H]).
  destruct (atom_same r wr H) as [E1 E2].
  split; [f_equal; exact E1 | exact E2].
Qed.

Lemma observed_without (cs : list apicall) (w1 w2 : world) :
  sameUpToLabels w1 w2 ->
  observed cs w1 = observed (withoutLabels cs) w2 /\
  sameUpToLabels (snd (execAll cs w1)) (snd (execAll (withoutLabels cs) w2)).
Proof.
  revert w1 w2. induction cs as [|c cs IH]; intros w1 w2 H.
  - split; [reflexivity | exact H].
  - unfold withoutLabels. cbn [filter observed]. fold (withoutLabels cs).
    rewrite execAll_cons.
    destruct (labelOnly c) eqn:Hc; cbn [negb].
    + pose proof (exec_labelOnly c w1 Hc) as H1.
      destruct (exec c w1) as [r w1']. cbn [snd] in *.
      apply IH. exact (same_trans H1 H).
    + cbn [observed]. rewrite execAll_cons.
      destruct (exec_same c H Hc) as [E1 E2].
      destruct (exec c w1) as [r1 w1'], (exec c w2) as [r2 w2'].
      cbn [fst snd] in *. subst r2. rewrite Hc.
      destruct (IH _ _ E2) as [O1 O2].
      split; [now rewrite O1 | exact O2].
Qed.

Lemma erased_fields (c d : AtomConfig Fn Other) :
  withLabel None c = withLabel None d ->
  key c = key d /\ init c = init d /\ read c = read d /\ write c = write d.
Proof. intros H. inversion H. auto. Qed.

Lemma same_fields (w1 w2 : world) (a : Ref) (c1 c2 : AtomConfig Fn Other) :
  sameUpToLabels w1 w2 ->
  lookup a w1 = Some c1 -> lookup a w2 = Some c2 ->
  withLabel None c1 = withLabel None c2.
Proof.
  intros H H1 H2. pose proof (same_lookup a H) as E.
  rewrite H1, H2 in E. simpl in E. congruence.
Qed.

Lemma readOf_same (w1 w2 : world) (a : Ref) :
  sameUpToLabels w1 w2 -> readOf call a w1 = readOf call a w2.
Proof.
  intros H. pose proof (same_lookup a H) as E. unfold readOf.
  destruct (lookup a w1) as [c1|], (lookup a w2) as [c2|];
    simpl in E; try discriminate; [|reflexivity].
  assert (E' : withLabel None c1 = withLabel None c2) by congruence.
  destruct (erased_fields E') as (_ & _ & -> & _). reflexivity.
Qed.

Lemma writeOf_same (w1 w2 : world) (a : Ref) (args : list (Value Fn Other)) :
  sameUpToLabels w1 w2 -> writeOf call a args w1 = writeOf call a args w2.
Proof.
  intros H. pose proof (same_lookup a H) as E. unfold writeOf.
  destruct (lookup a w1) as [c1|], (lookup a w2) as [c2|];
    simpl in E; try discriminate; [|reflexivity].
  assert (E' : withLabel None c1 = withLabel None c2) by congruence.
  destruct (erased_fields E') as (_ & _ & _ & ->). reflexivity.
Qed.

Lemma toString_production (c : AtomConfig Fn Other) :
  toString (Some "production") c = key c.
Proof. unfold toString. destruct (debugLabel c); reflexivity. Qed.

(** C9.  Two runs of the API that start from worlds equal up to debug
    labels and make the same calls apart from assignments to [debugLabel]
    and [toString] renderings (one run may label a descriptor, the other
    not, or differently) return the same results from every other call,
    the same references among them, and end in worlds equal up to debug
    labels: there every descriptor has the same key, [init], [read] and
    [write], calling its [read] or [write] method is the same computation,
    and in production mode even [toString] agrees. *)
Theorem debugLabel_noninterference (cs1 cs2 : list apicall) (w1 w2 : world) :
  sameUpToLabels w1 w2 ->
  withoutLabels cs1 = withoutLabels cs2 ->
  let w1' := snd (execAll cs1 w1) in
  let w2' := snd (execAll cs2 w2) in
  observed cs1 w1 = observed cs2 w2 /\
  sameUpToLabels w1' w2' /\
  keyCount w1' = keyCount w2' /\
  (forall a, readOf call a w1' = readOf call a w2') /\
  (forall a args, writeOf call a args w1' = writeOf call a args w2') /\
  (forall a c1 c2,
      lookup a w1' = Some c1 -> lookup a w2' = Some c2 ->
      key c1 = key c2 /\ init c1 = init c2 /\
      read c1 = read c2 /\ write c1 = write c2 /\
      toString (Some "production") c1 = toString (Some "production") c2).
Proof.
  intros H Hcs w1' w2'.
  destruct (observed_without cs1 H) as [O1 S1].
  destruct (observed_without cs2 (same_refl w2)) as [O2 S2].
  assert (S : sameUpToLabels w1' w2').
  { unfold w1', w2'. rewrite Hcs in S1.
    exact (same_trans S1 (same_sym S2)). }
  split; [congruence|]. split; [exact S|].
  split; [exact (same_keyCount S)|].
  split; [intros a; exact (readOf_same a S)|].
  split; [intros a args; exact (writeOf_same a args S)|].
  intros a c1 c2 L1 L2.
  destruct (erased_fields (same_fields a S L1 L2)) as (K & I & R & W).
  rewrite !toString_production. auto.
Qed.

End LabelFacts.

(** ** Default read and write against arbitrary accessors *)

Section AccessorFacts.

Variables Fn Other Private : Type.
Variable call : Fn -> list (Value Fn Other) -> Comp Fn Other.
Variable getter : Getter Fn Other Private.
Variable setter : Setter Fn Other Private.

Local Abbreviation value := (Value Fn Other).
Local Abbreviation world := (World Fn Other Private).
Local Abbreviation comp := (Comp Fn Other).

Lemma pbind_ret (m : Prog Fn Other Private value) (w : world) :
  pbind m (fun v => ret v) w = m w.
Proof. unfold pbind, ret. now destruct (m w) as [[v|e] w']. Qed.


Lemma run_bind (c : comp) (f : value -> comp) (w : world) :
  run getter setter (bind c f) w
  = pbind (run getter setter c) (fun v => run getter setter (f v)) w.
Proof.
  revert w. induction c as [v|e|a k IH|a args k IH]; intros w; simpl;
    try reflexivity.
  - unfold pbind. destruct (getter a w) as [[v|e] w']; [|reflexivity].
    rewrite IH. reflexivity.
  - unfold pbind. destruct (setter a args w) as [[v|e] w']; [|reflexivity].
    rewrite IH. reflexivity.
Qed.

Lemma accesses_bind (c : comp) (f : value -> comp) (w : world) :
  accesses getter setter (bind c f) w
  = (accesses getter setter c w ++
     match run getter setter c w with
     | (Normal v, w') => accesses getter setter (f v) w'
     | (Throw _, _) => []
     end)%list.
Proof.
  revert w. induction c as [v|e|a k IH|a args k IH]; intros w; simpl;
    try reflexivity.
  - unfold pbind. destruct (getter a w) as [[v|e] w']; simpl; [|reflexivity].
    now rewrite IH.
  - unfold pbind.
    destruct (setter a args w) as [[v|e] w']; simpl; [|reflexivity].
    now rewrite IH.
Qed.

Lemma defaultWrite_value (a : Ref) (v : value) :
  typeof_function v = false -> defaultWrite call a v = SetE a [v] (@Ret _ _).
Proof. destruct v; simpl; congruence. Qed.

Lemma run_defaultWrite_value (a : Ref) (v : value) (w : world) :
  typeof_function v = false ->
  run getter setter (defaultWrite call a v) w = setter a [v] w.
Proof.
  intros H. rewrite (defaultWrite_value a v H). simpl. apply pbind_ret.
Qed.

(** A descriptor that [atom] built from a non-function keeps [defaultRead]
    as its [read] whatever is called afterwards. *)
Lemma primitive_readOf (init0 : value) (wr : option Fn)
      (cs : list (ApiCall Fn Other)) (w : world) :
  typeof_function init0 = false ->
  readOf call (fst (atom init0 wr w)) (snd (execAll cs (snd (atom init0 wr w))))
  = Some (defaultRead (fst (atom init0 wr w))).
Proof.
  intros H.
  destruct (execAll_keeps cs _ _ (atom_lookup init0 wr w)) as (d & Hd & E).
  unfold readOf. rewrite Hd.
  destruct (erased_fields E) as (_ & _ & -> & _).
  rewrite built_read. destruct init0; try discriminate; reflexivity.
Qed.

Lemma primitive_writeOf (init0 : value) (cs : list (ApiCall Fn Other))
      (w : world) (args : list value) :
  typeof_function init0 = false ->
  writeOf call (fst (atom init0 None w)) args
          (snd (execAll cs (snd (atom init0 None w))))
  = Some (defaultWrite call (fst (atom init0 None w)) (nth 0 args VUndefined)).
Proof.
  intros H.
  destruct (execAll_keeps cs _ _ (atom_lookup init0 None w)) as (d & Hd & E).
  unfold writeOf. rewrite Hd.
  destruct (erased_fields E) as (_ & _ & _ & ->).
  rewrite built_write. simpl. now rewrite H.
Qed.


End AccessorFacts.

(** ** Writing and reading a primitive cell *)

Section WriteThenRead.

Variables Fn Other Private : Type.
Variable call : Fn -> list (Value Fn Other) -> Comp Fn Other.
Variable getter : Getter Fn Other Private.
Variable setter : Setter Fn Other Private.

Local Abbreviation value := (Value Fn Other).
Local Abbreviation world := (World Fn Other Private).


(** C4, amended.  A cell built from a read function alone has neither
    [init] nor [write], at any later point, so there is no write method to
    call on it; and a program that takes a store from [createStore] and
    calls [set] on that cell throws the error of [createStore] and leaves
    the world exactly as it was. *)
Theorem readonly_cell_has_no_write (f : Fn) (cs : list (ApiCall Fn Other))
        (w : world) :
  let D := fst (atom (VFun f) None w) in
  let w1 := snd (execAll cs (snd (atom (VFun f) None w))) in
  (exists c, lookup D w1 = Some c /\ init c = None /\ write c = None /\
             read c = Some (ReadFn f)) /\
  (forall args, writeOf call D args w1 = None) /\
  (forall args,
      pbind createStore (fun st => set st D args) w1
      = (Throw (Error "createStore will be implemented in Day 2"), w1)).
Proof.
  intros D w1.
  destruct (execAll_keeps cs _ _ (atom_lookup (VFun f) None w))
    as (d & Hd & E).
  destruct (erased_fields E) as (_ & I & R & W).
  rewrite built_init in I. rewrite built_read in R. rewrite built_write in W.
  simpl in I, R, W.
  split; [exists d; auto|].
  split; [|reflexivity].
  intros args. unfold writeOf, D, w1. now rewrite Hd, W.
Qed.

(** C5, amended.  A program that takes a store from [createStore] and
    reads a cell [X], whatever [X]'s compute reads, throws the error of
    [createStore] at once and leaves the world as it was: no compute is
    run and nothing is recorded for [X].  Reading its own cell is not an
    error in itself: the compute of every primitive cell is [get] of that
    very cell, and it answers whatever [get] answers. *)
Theorem self_read_reaches_no_store (X : Ref) (w : world)
        (init0 : value) (wr : option Fn) (w0 w' : world) :
  pbind createStore (fun st => get st X) w
  = (Throw (Error "createStore will be implemented in Day 2"), w) /\
  (typeof_function init0 = false ->
   let P := fst (atom init0 wr w0) in
   readOf call P (snd (atom init0 wr w0)) = Some (GetE P (@Ret _ _)) /\
   accesses getter setter (GetE P (@Ret _ _)) w' = [DidGet P] /\
   run getter setter (GetE P (@Ret _ _)) w' = getter P w').
Proof.
  split; [reflexivity|].
  intros H P.
  split; [exact (primitive_readOf call init0 wr [] w0 H)|].
  split; [|apply pbind_ret].
  simpl. now destruct (getter P w') as [[v|e] w2].
Qed.

End WriteThenRead.

(** ** The scenarios *)

Section DerivedCell.

Variable getter : Getter Closure Special Memory.
Variable setter : Setter Closure Special Memory.




End DerivedCell.

(** ** Concrete runs *)




(** C4, as stated, fails: the error met when writing to a read-only cell is
    the one [createStore] throws, the very same a write to a writable
    primitive cell meets; it says nothing about the cell. *)
Lemma scenarioWriteReadOnly_throws :
  fst (scenarioWriteReadOnly freshWorld)
  = Throw (Error "createStore will be implemented in Day 2") /\
  fst (scenarioWriteRead (VNum 1) (VNum 7) freshWorld)
  = fst (scenarioWriteReadOnly freshWorld).
Proof. split; reflexivity. Qed.

(** C5, as stated, fails: reading a cell whose compute reads itself,
    directly or through another cell, throws the error of [createStore],
    as reading any cell does; and the primitive cell [atom(1)], whose
    compute reads the cell itself, answers 1 against the memory accessors
    instead of failing. *)
Lemma scenarioSelfRead_throws :
  fst (scenarioSelfRead freshWorld)
  = Throw (Error "createStore will be implemented in Day 2") /\
  fst (scenarioMutualRead freshWorld)
  = Throw (Error "createStore will be implemented in Day 2") /\
  readOf closureCall 0 (snd (atom (VNum 1) None freshWorld))
  = Some (GetE 0 (@Ret _ _)) /\
  fst (run memGet memSet (GetE 0 (@Ret _ _))
           (snd (atom (VNum 1) None freshWorld)))
  = Normal (VNum 1).
Proof. repeat split; reflexivity. Qed.


(** The world after [const A = atom(1)] in a fresh module. *)
Lemma oneAtom_world :
  snd (atom (VNum 1) None freshWorld)
  = mkWorld 1
      [mkConfig "atom1" (Some (VNum 1)) (Some DefaultRead) (Some DefaultWrite)
                None]
      [].
Proof. reflexivity. Qed.

Example toString_shows_label :
  let w := assignDebugLabel 0 (Some "count")
             (snd (atom (VNum 1) None freshWorld)) in
  option_map (toString None) (lookup 0 w) = Some "atom1:count" /\
  option_map (toString (Some "production")) (lookup 0 w) = Some "atom1" /\
  option_map (toString None) (lookup 0 (snd (atom (VNum 1) None freshWorld)))
  = Some "atom1".
Proof. repeat split; reflexivity. Qed.

Example counter_saturates :
  increment 9007199254740991 = 9007199254740992%N /\
  increment 9007199254740992 = 9007199254740992%N.
Proof. split; reflexivity. Qed.



(** C9 at two runs after [atom(1)]: one labels the cell [count] before
    building a derived cell and renders it, the other labels it [other]
    afterwards. *)
Lemma debugLabel_noninterference_witness :
  let w := snd (atom (VNum 1) None freshWorld) in
  let cs1 := [AssignDebugLabel 0 (Some "count");
              CallAtom (VFun (TimesCell 0 2)) None;
              CallToString None 0] in
  let cs2 := [CallAtom (VFun (TimesCell 0 2)) None;
              AssignDebugLabel 0 (Some "other")] in
  sameUpToLabels w w /\
  withoutLabels cs1 = withoutLabels cs2 /\
  observed cs1 w = observed cs2 w /\
  sameUpToLabels (snd (execAll cs1 w)) (snd (execAll cs2 w)) /\
  (forall a, readOf closureCall a (snd (execAll cs1 w))
             = readOf closureCall a (snd (execAll cs2 w))).
Proof.
  intros w cs1 cs2.
  destruct (debugLabel_noninterference closureCall cs1 cs2
              (eq_refl : sameUpToLabels w w)
              (eq_refl : withoutLabels cs1 = withoutLabels cs2))
    as (O & S & _ & R & _).
  repeat split; assumption.
Defined.



(** * Further properties of the code *)

(** ** What [toString] renders *)

Lemma append_empty (s : string) : s ++ "" = s.
Proof. induction s as [|c s IH]; simpl; [reflexivity | now rewrite IH]. Qed.

Ltac digit_clash :=
  match goal with
  | E : _ = _, H : labelSuffix _ |- _ =>
      simpl in E; subst; simpl in H; discriminate H
  | E : String _ _ = String _ _ |- _ => discriminate E
  end.

(** Decimal digits followed by a label suffix split in one way only. *)
Lemma digits_then_suffix (d1 : Decimal.uint) :
  forall (d2 : Decimal.uint) (s1 s2 : string),
    labelSuffix s1 -> labelSuffix s2 ->
    NilEmpty.string_of_uint d1 ++ s1 = NilEmpty.string_of_uint d2 ++ s2 ->
    d1 = d2 /\ s1 = s2.
Proof.
  induction d1 as [|d1 IH|d1 IH|d1 IH|d1 IH|d1 IH|d1 IH|d1 IH|d1 IH|d1 IH|d1 IH];
    intros [|d2|d2|d2|d2|d2|d2|d2|d2|d2|d2] s1 s2 H1 H2 E;
    try (split; [reflexivity | exact E]);
    try digit_clash;
    try (simpl in E; symmetry in E; digit_clash);
    simpl in E; injection E as E;
    destruct (IH d2 s1 s2 H1 H2 E) as [-> ->]; split; reflexivity.
Qed.

Section Rendering.

Variables Fn Other : Type.

Local Abbreviation config := (AtomConfig Fn Other).

Lemma toString_suffix (mode : option string) (c : config) :
  exists t, toString mode c = key c ++ t /\ labelSuffix t.
Proof.
  unfold toString. destruct (debugLabel c) as [l|].
  - destruct (notProduction mode && negb (String.eqb l "")).
    + exists (":" ++ l). split; reflexivity.
    + exists "". split; [now rewrite append_empty | exact I].
  - exists "". split; [now rewrite append_empty | exact I].
Qed.


End Rendering.

(** ** Assigning [debugLabel] *)

Section Labelling.

Variables Fn Other Private : Type.

Local Abbreviation config := (AtomConfig Fn Other).
Local Abbreviation world := (World Fn Other Private).

Lemma updateAt_twice (a : nat) (f g : config -> config) (h : list config) :
  updateAt a f (updateAt a g h) = updateAt a (fun c => f (g c)) h.
Proof.
  revert a. induction h as [|c t IH]; intros [|a]; simpl; auto.
  now rewrite IH.
Qed.

(** X2.  [toString] reads [debugLabel] when it is called, so a label
    assigned after [atom] returned shows in the rendering: once
    [a.debugLabel = l] is done, [a] renders as [key:l] if [l] is a
    non-empty string and the mode is not production, and as the bare key
    otherwise.  The assignment changes no other descriptor, neither the
    counter, and a later assignment replaces an earlier one. *)
Theorem toString_follows_label (a : Ref) (l : option string)
        (mode : option string) (w : world) (c : config) :
  lookup a w = Some c ->
  let w' := assignDebugLabel a l w in
  option_map (toString mode) (lookup a w')
  = Some (match l with
          | Some s =>
              if notProduction mode && negb (String.eqb s "")
              then key c ++ ":" ++ s
              else key c
          | None => key c
          end) /\
  (forall b, b <> a -> lookup b w' = lookup b w) /\
  keyCount w' = keyCount w /\
  (forall l2, assignDebugLabel a l2 w' = assignDebugLabel a l2 w).
Proof.
  intros Hc w'. unfold lookup in Hc.
  split; [|split; [|split]].
  - unfold w', lookup, assignDebugLabel; simpl.
    rewrite updateAt_same, Hc. simpl. unfold toString; simpl.
    destruct l; reflexivity.
  - intros b Hb. unfold w', lookup, assignDebugLabel; simpl.
    apply updateAt_other. congruence.
  - reflexivity.
  - intros l2. unfold w', assignDebugLabel; simpl.
    now rewrite updateAt_twice.
Qed.

End Labelling.

(** ** Worlds reached from a freshly loaded module *)

Section ReachableFacts.

Variables Fn Other Private : Type.
Variable call : Fn -> list (Value Fn Other) -> Comp Fn Other.

Local Abbreviation config := (AtomConfig Fn Other).
Local Abbreviation world := (World Fn Other Private).
Local Abbreviation apicall := (ApiCall Fn Other).

Lemma increment_min (len : nat) :
  increment (N.min (N.of_nat len) MAX_EXACT)
  = N.min (N.of_nat (S len)) MAX_EXACT.
Proof.
  unfold increment.
  destruct (N.ltb_spec (N.min (N.of_nat len) MAX_EXACT) MAX_EXACT); lia.
Qed.

Lemma wellFormed_built (r : Value Fn Other) (wr : option Fn) (w : world) :
  wellFormed (built r wr w).
Proof.
  unfold wellFormed. rewrite built_init, built_read, built_write.
  destruct r; simpl; try (split; [reflexivity | destruct wr; discriminate]).
  now exists f.
Qed.

Lemma wellFormed_withLabel (l : option string) (c : config) :
  wellFormed c -> wellFormed (withLabel l c).
Proof. unfold wellFormed. simpl. auto. Qed.

Lemma inOrder_loaded (p : Private) : inOrder (loaded Fn Other p).
Proof.
  split; [reflexivity|].
  intros [|i] c H; discriminate H.
Qed.

Lemma atom_inOrder (r : Value Fn Other) (wr : option Fn) (w : world) :
  inOrder w -> inOrder (snd (atom r wr w)).
Proof.
  intros [Hk Hh]. split.
  - rewrite atom_keyCount, Hk. simpl. rewrite length_app. simpl.
    rewrite Nat.add_1_r. apply increment_min.
  - intros i c Hi.
    destruct (Nat.lt_ge_cases i (List.length (heap w))) as [Hlt|Hge].
    + rewrite (atom_keeps r wr w Hlt) in Hi. now apply Hh.
    + assert (Hlen : i < List.length (heap (snd (atom r wr w)))).
      { apply nth_error_Some. unfold lookup in Hi. congruence. }
      simpl in Hlen. rewrite length_app in Hlen. simpl in Hlen.
      assert (i = List.length (heap w)) by lia. subst i.
      pose proof (atom_lookup r wr w) as L. rewrite atom_ref in L.
      rewrite L in Hi. injection Hi as <-.
      split; [|apply wellFormed_built].
      rewrite built_key, Hk. unfold keyNumber. now rewrite increment_min.
Qed.

Lemma assign_inOrder (a : Ref) (l : option string) (w : world) :
  inOrder w -> inOrder (assignDebugLabel a l w).
Proof.
  intros [Hk Hh]. split.
  - simpl. now rewrite updateAt_length.
  - intros i c. unfold lookup, assignDebugLabel; simpl.
    destruct (Nat.eq_dec a i) as [->|Hne].
    + rewrite updateAt_same.
      destruct (nth_error (heap w) i) as [d|] eqn:Hd; simpl; [|discriminate].
      intros E. injection E as <-.
      destruct (Hh i d Hd) as [K W].
      split; [exact K | now apply wellFormed_withLabel].
    + rewrite updateAt_other by exact Hne. apply Hh.
Qed.

Lemma exec_inOrder (c : apicall) (w : world) :
  inOrder w -> inOrder (snd (exec c w)).
Proof.
  intros H. destruct c as [r wr|a l| | | | | | | |]; simpl; try exact H.
  - exact (atom_inOrder r wr H).
  - exact (assign_inOrder a l H).
Qed.

Lemma execAll_inOrder (cs : list apicall) (w : world) :
  inOrder w -> inOrder (snd (execAll cs w)).
Proof.
  revert w. induction cs as [|c cs IH]; intros w H; [exact H|].
  rewrite execAll_cons. apply IH. now apply exec_inOrder.
Qed.

Lemma execAll_heap_length (cs : list apicall) (w : world) :
  List.length (heap (snd (execAll cs w)))
  = List.length (heap w)
    + List.length (filter (fun c => match c with
                                    | CallAtom _ _ => true
                                    | _ => false
                                    end) cs).
Proof.
  revert w. induction cs as [|c cs IH]; intros w; [simpl; lia|].
  rewrite execAll_cons, IH.
  destruct c; simpl; rewrite ?updateAt_length, ?length_app; simpl; lia.
Qed.

(** X3.  Start from the module as loaded and make any calls of the API.
    The descriptors then number as many as the calls of [atom] made; the
    counter equals that number (capped at 2^53); and the descriptor
    created by the [(i+1)]-th call of [atom] is keyed [atom] followed by
    the decimal digits of [i+1], as long as [i+1] is at most 2^53. *)
Theorem keys_follow_creation_order (p : Private) (cs : list apicall)
        (i : nat) (c : config) :
  let w := snd (execAll cs (loaded Fn Other p)) in
  lookup i w = Some c ->
  (N.of_nat (S i) <= MAX_EXACT)%N ->
  key c = atomKey (N.of_nat (S i)) /\
  List.length (heap w)
  = List.length (filter (fun c => match c with
                                  | CallAtom _ _ => true
                                  | _ => false
                                  end) cs) /\
  keyCount w = N.min (N.of_nat (List.length (heap w))) MAX_EXACT.
Proof.
  intros w Hi Hle.
  destruct (execAll_inOrder cs (inOrder_loaded p)) as [Hk Hh].
  fold w in Hk, Hh.
  destruct (Hh i c Hi) as [K _].
  split; [|split; [|exact Hk]].
  - rewrite K. unfold keyNumber. f_equal. lia.
  - unfold w. now rewrite execAll_heap_length.
Qed.

(** X4.  Start from the module as loaded and make any calls of the API.
    Every descriptor then has a [read]; it either carries [init], with
    [defaultRead] as its [read] and some [write], or carries no [init]
    and has a caller's function as its [read].  So the [read] method of a
    descriptor can always be called, and so can the [write] method of
    every descriptor that carries [init]. *)
Theorem descriptors_well_formed (p : Private) (cs : list apicall)
        (a : Ref) (c : config) :
  let w := snd (execAll cs (loaded Fn Other p)) in
  lookup a w = Some c ->
  (init c <> None -> read c = Some DefaultRead /\ write c <> None) /\
  (init c = None -> exists f, read c = Some (ReadFn f)) /\
  readOf call a w <> None /\
  (init c <> None -> forall args, writeOf call a args w <> None).
Proof.
  intros w Ha.
  destruct (execAll_inOrder cs (inOrder_loaded p)) as [_ Hh].
  destruct (Hh a c Ha) as [_ W]. unfold wellFormed in W.
  unfold readOf, writeOf. fold w. rewrite Ha.
  destruct (init c) as [v|].
  - destruct W as [R Wr]. rewrite R.
    repeat split; try congruence.
    intros _ args. destruct (write c) as [[|g]|]; congruence.
  - destruct W as [f R]. rewrite R.
    repeat split; try congruence.
    intros _. now exists f.
Qed.

End ReachableFacts.

(** ** Atoms of one module render differently *)

Section Identification.

Variables Fn Other Private : Type.

Local Abbreviation config := (AtomConfig Fn Other).
Local Abbreviation apicall := (ApiCall Fn Other).

(** X5.  Start from the module as loaded and make any calls of the API.
    Two different descriptors among the first 2^53 then have different
    keys and render differently under [toString], whatever labels they
    were given and in whatever modes the two renderings are made. *)
Theorem renderings_identify_atoms (p : Private) (cs : list apicall)
        (a b : Ref) (ca cb : config) (m1 m2 : option string) :
  let w := snd (execAll cs (loaded Fn Other p)) in
  lookup a w = Some ca ->
  lookup b w = Some cb ->
  (N.of_nat (S a) <= MAX_EXACT)%N ->
  (N.of_nat (S b) <= MAX_EXACT)%N ->
  a <> b ->
  key ca <> key cb /\ toString m1 ca <> toString m2 cb.
Proof.
  intros w Ha Hb La Lb Hab.
  destruct (execAll_inOrder cs (inOrder_loaded Fn Other p)) as [_ Hh].
  fold w in Hh.
  destruct (Hh a ca Ha) as [Ka _]. destruct (Hh b cb Hb) as [Kb _].
  assert (Hn : keyNumber a <> keyNumber b) by (unfold keyNumber; lia).
  revert Ka Kb Hn. generalize (keyNumber a) (keyNumber b).
  intros na nb Ka Kb Hn.
  split.
  - rewrite Ka, Kb. intros E. exact (Hn (atomKey_inj E)).
  - destruct (toString_suffix m1 ca) as (ta & Ta & Sa).
    destruct (toString_suffix m2 cb) as (tb & Tb & Sb).
    rewrite Ta, Tb, Ka, Kb. unfold atomKey, decimal.
    cbn [append]. intros E. injection E as E.
    destruct (digits_then_suffix _ _ _ _ Sa Sb E) as [D _].
    exact (Hn (DecimalN.Unsigned.to_uint_inj _ _ D)).
Qed.

End Identification.

(** ** What the calls leave alone *)

Section Frame.

Variables Fn Other Private : Type.
Variable call : Fn -> list (Value Fn Other) -> Comp Fn Other.

Local Abbreviation value := (Value Fn Other).
Local Abbreviation config := (AtomConfig Fn Other).
Local Abbreviation world := (World Fn Other Private).
Local Abbreviation apicall := (ApiCall Fn Other).

Lemma exec_keeps_unassigned (c : apicall) (w : world) (a : Ref) (d : config) :
  (forall l, c <> AssignDebugLabel a l) ->
  lookup a w = Some d ->
  lookup a (snd (exec c w)) = Some d.
Proof.
  intros Hc Hd.
  assert (Ha : a < List.length (heap w)).
  { apply nth_error_Some. unfold lookup in Hd. congruence. }
  destruct c as [r wr|b l| | | | | | | |]; simpl; try exact Hd.
  - rewrite <- Hd. exact (atom_keeps r wr w Ha).
  - unfold lookup, assignDebugLabel; simpl.
    rewrite updateAt_other; [exact Hd|].
    intros ->. exact (Hc l eq_refl).
Qed.

Lemma exec_heap_grows (c : apicall) (w : world) :
  List.length (heap w) <= List.length (heap (snd (exec c w))).
Proof.
  destruct c; simpl; rewrite ?updateAt_length, ?length_app; simpl; lia.
Qed.

(** X6.  No call of the API removes a descriptor or changes its key,
    [init], [read] or [write]: a reference stays valid through any later
    calls, calling the descriptor's [read] or [write] method stays the
    same computation, and the descriptor is left exactly as it was,
    label included, unless one of the calls assigns its [debugLabel]. *)
Theorem descriptors_never_change (cs : list apicall) (w : world) (a : Ref)
        (d : config) :
  lookup a w = Some d ->
  let w' := snd (execAll cs w) in
  (exists d', lookup a w' = Some d' /\
              key d' = key d /\ init d' = init d /\
              read d' = read d /\ write d' = write d) /\
  readOf call a w' = readOf call a w /\
  (forall args, writeOf call a args w' = writeOf call a args w) /\
  List.length (heap w) <= List.length (heap w') /\
  ((forall l, ~ In (AssignDebugLabel a l) cs) -> lookup a w' = Some d).
Proof.
  intros Hd w'.
  destruct (execAll_keeps cs w a Hd) as (d' & Hd' & E). fold w' in Hd'.
  destruct (erased_fields E) as (K & I & R & W).
  split; [exists d'; auto|].
  split; [unfold readOf; now rewrite Hd', Hd, R|].
  split; [intros args; unfold writeOf; now rewrite Hd', Hd, W|].
  split.
  - unfold w'. clear. revert w.
    induction cs as [|c cs IH]; intros w; [simpl; lia|].
    rewrite execAll_cons.
    pose proof (exec_heap_grows c w). specialize (IH (snd (exec c w))). lia.
  - unfold w'. clear - Hd. revert w Hd.
    induction cs as [|c cs IH]; intros w Hd Hno; [exact Hd|].
    rewrite execAll_cons. apply IH.
    + apply exec_keeps_unassigned; [|exact Hd].
      intros l ->. exact (Hno l (or_introl eq_refl)).
    + intros l Hin. exact (Hno l (or_intror Hin)).
Qed.

(** X7.  A call of [atom] returns a reference that was not valid before,
    adds exactly one descriptor, and leaves every descriptor already
    there, the labels and the private memory untouched.  The reference
    and the key depend on the world alone, not on the arguments, and the
    new descriptor has no [debugLabel], so it renders as its bare key in
    every mode. *)
Theorem atom_allocates_fresh (r1 r2 : value) (wr1 wr2 : option Fn)
        (w : world) :
  let a := fst (atom r1 wr1 w) in
  let w' := snd (atom r1 wr1 w) in
  lookup a w = None /\
  List.length (heap w') = S (List.length (heap w)) /\
  (forall b d, lookup b w = Some d -> lookup b w' = Some d) /\
  private w' = private w /\
  fst (atom r2 wr2 w) = a /\
  (exists c c2,
      lookup a w' = Some c /\
      lookup a (snd (atom r2 wr2 w)) = Some c2 /\
      key c2 = key c /\
      debugLabel c = None /\
      forall mode, toString mode c = key c).
Proof.
  intros a w'.
  split; [apply nth_error_None; unfold a; rewrite atom_ref; lia|].
  split; [unfold w'; simpl; rewrite length_app; simpl; lia|].
  split.
  { intros b d Hb. rewrite <- Hb. apply atom_keeps.
    apply nth_error_Some. unfold lookup in Hb. congruence. }
  split; [reflexivity|]. split; [reflexivity|].
  exists (built r1 wr1 w), (built r2 wr2 w).
  split; [apply atom_lookup|].
  split; [apply (atom_lookup r2 wr2 w)|].
  split; [now rewrite !built_key|].
  assert (L : debugLabel (built r1 wr1 w) = None)
    by (unfold built; destruct wr1, r1; reflexivity).
  split; [exact L|].
  intros mode. unfold toString. now rewrite L.
Qed.

(** The calls that do not write to the world leave it as it is. *)
Lemma exec_idle (c : apicall) (w : world) :
  changesState c = false -> snd (exec c w) = w.
Proof. destruct c; simpl; intros H; try discriminate H; reflexivity. Qed.

(** X11.  The entry points of the store and of the React binding take
    part in no state: in any sequence of calls of the API, dropping every
    call other than [atom] and the label assignments leaves the final
    world the same.  Each of [createStore], [getDefaultStore], [Provider],
    [useStore], [useAtomValue], [useSetAtom] and [useAtom] throws whatever
    its argument, and what a caller would do with the result of a hook is
    never run. *)
Theorem entry_points_change_nothing (cs : list apicall) (w : world) :
  snd (execAll cs w) = snd (execAll (filter (@changesState Fn Other) cs) w) /\
  (forall c w0,
      changesState c = false ->
      snd (exec c w0) = w0 /\
      match c with
      | CallToString _ _ => True
      | _ => @isThrown Fn Other Private (fst (exec c w0)) = true
      end) /\
  (forall (a : Ref) (ch : value) (A : Type)
          (k1 k2 : value -> Prog Fn Other Private A)
          (k3 : (list value -> Prog Fn Other Private value)
                -> Prog Fn Other Private A)
          (k4 : value * (list value -> Prog Fn Other Private value)
                -> Prog Fn Other Private A),
      pbind (Provider ch) k1 w
      = (Throw (Error "Provider will be implemented in Day 5"), w) /\
      pbind (useAtomValue a) k2 w
      = (Throw (Error "useAtomValue will be implemented in Day 5"), w) /\
      pbind (useSetAtom a) k3 w
      = (Throw (Error "useSetAtom will be implemented in Day 5"), w) /\
      pbind (useAtom a) k4 w
      = (Throw (Error "useAtom will be implemented in Day 5"), w)).
Proof.
  split; [|split].
  - revert w. induction cs as [|c cs IH]; intros w; [reflexivity|].
    rewrite execAll_cons. cbn [filter].
    destruct (changesState c) eqn:Hc.
    + rewrite execAll_cons. apply IH.
    + rewrite (exec_idle c w Hc). apply IH.
  - intros c w0 Hc. split; [exact (exec_idle c w0 Hc)|].
    destruct c; try discriminate Hc; try exact I; reflexivity.
  - intros. repeat split; reflexivity.
Qed.

End Frame.

(** ** More on the default write *)

Section DefaultWriteFacts.

Variables Fn Other Private : Type.
Variable call : Fn -> list (Value Fn Other) -> Comp Fn Other.
Variable getter : Getter Fn Other Private.
Variable setter : Setter Fn Other Private.

Local Abbreviation value := (Value Fn Other).
Local Abbreviation world := (World Fn Other Private).

(** X8.  [defaultWrite] handles no error.  With an updater function as
    argument: if [get(this)] throws, the write throws the same error and
    [set] is never called; if the updater throws, the write throws the
    same error and ends without its [set(this, ...)].  With a plain value:
    the write is the call [set(this, value)], returning what [set]
    returns and throwing what it throws. *)
Theorem default_write_propagates_errors (this : Ref) (w : world) :
  (forall g e w1,
      getter this w = (Throw e, w1) ->
      run getter setter (defaultWrite call this (VFun g)) w = (Throw e, w1) /\
      accesses getter setter (defaultWrite call this (VFun g)) w
      = [DidGet this]) /\
  (forall g prev e w1 w2,
      getter this w = (Normal prev, w1) ->
      run getter setter (call g [prev]) w1 = (Throw e, w2) ->
      run getter setter (defaultWrite call this (VFun g)) w = (Throw e, w2) /\
      accesses getter setter (defaultWrite call this (VFun g)) w
      = DidGet this :: accesses getter setter (call g [prev]) w1) /\
  (forall v,
      typeof_function v = false ->
      run getter setter (defaultWrite call this v) w = setter this [v] w /\
      accesses getter setter (defaultWrite call this v) w
      = [DidSet this [v]]).
Proof.
  split; [|split].
  - intros g e w1 Hg. simpl. unfold pbind. rewrite Hg. split; reflexivity.
  - intros g prev e w1 w2 Hg Hu. simpl. unfold pbind at 1. rewrite Hg.
    rewrite run_bind. unfold pbind at 1. rewrite Hu.
    split; [reflexivity|].
    f_equal. rewrite accesses_bind, Hu. apply app_nil_r.
  - intros v Hv. split; [now apply run_defaultWrite_value|].
    rewrite (defaultWrite_value call this v Hv). simpl.
    now destruct (setter this [v] w) as [[r|e] w1].
Qed.

Lemma explicit_writeOf (r : value) (g : Fn) (cs : list (ApiCall Fn Other))
      (w : world) (args : list value) :
  writeOf call (fst (atom r (Some g) w)) args
          (snd (execAll cs (snd (atom r (Some g) w))))
  = Some (call g args).
Proof.
  destruct (execAll_keeps cs _ _ (atom_lookup r (Some g) w)) as (d & Hd & E).
  unfold writeOf. rewrite Hd.
  destruct (erased_fields E) as (_ & _ & _ & ->).
  now rewrite built_write.
Qed.

(** X9.  The [write] method of a primitive cell built without a write
    argument looks at its first external argument only: further arguments
    are ignored, and with no argument at all it calls
    [set(this, undefined)].  When [atom] was given a write function, that
    function receives all the arguments and [defaultWrite] is not used,
    for a primitive cell as for a derived one. *)
Theorem write_method_arguments (init0 : value) (g : Fn)
        (cs : list (ApiCall Fn Other)) (w : world)
        (v : value) (rest : list value) :
  typeof_function init0 = false ->
  let P := fst (atom init0 None w) in
  let w1 := snd (execAll cs (snd (atom init0 None w))) in
  writeOf call P (v :: rest) w1 = writeOf call P [v] w1 /\
  writeOf call P (v :: rest) w1 = Some (defaultWrite call P v) /\
  writeOf call P [] w1 = Some (SetE P [VUndefined] (@Ret _ _)) /\
  (forall r args,
      writeOf call (fst (atom r (Some g) w)) args
              (snd (execAll cs (snd (atom r (Some g) w))))
      = Some (call g args)).
Proof.
  intros H P w1. unfold P, w1.
  rewrite !(primitive_writeOf call init0 cs w _ H). simpl.
  repeat split; try reflexivity.
  intros r args. apply explicit_writeOf.
Qed.


End DefaultWriteFacts.

(** ** The further properties at concrete inputs *)


(** X2 at [A = atom(1); A.debugLabel = 'count'] in a fresh module. *)
Lemma toString_follows_label_witness :
  let w := snd (atom (VNum 1) None freshWorld) in
  let c : AtomConfig Closure Special :=
    mkConfig "atom1" (Some (VNum 1)) (Some DefaultRead) (Some DefaultWrite)
             None in
  lookup 0 w = Some c /\
  option_map (toString None)
             (lookup 0 (assignDebugLabel 0 (Some "count") w))
  = Some "atom1:count".
Proof.
  intros w c. split; [reflexivity|].
  exact (proj1 (@toString_follows_label Closure Special Memory 0
                  (Some "count") None w c eq_refl)).
Defined.

(** X3 at [atom(1); createStore(); atom(2)] in a fresh module: the second
    descriptor is keyed [atom2]. *)
Lemma keys_follow_creation_order_witness :
  let cs : list (ApiCall Closure Special) :=
    [CallAtom (VNum 1) None; CallCreateStore; CallAtom (VNum 2) None] in
  let w : JsWorld := snd (execAll cs (loaded Closure Special [])) in
  let c : AtomConfig Closure Special :=
    mkConfig "atom2" (Some (VNum 2)) (Some DefaultRead) (Some DefaultWrite)
             None in
  lookup 1 w = Some c /\
  (N.of_nat 2 <= MAX_EXACT)%N /\
  key c = atomKey (N.of_nat 2) /\
  List.length (heap w) = 2.
Proof.
  intros cs w c.
  assert (B : (N.of_nat 2 <= MAX_EXACT)%N) by (intros E; discriminate E).
  destruct (@keys_follow_creation_order Closure Special Memory [] cs 1 c
              eq_refl B) as (K & L & _).
  split; [reflexivity|]. split; [exact B|]. split; [exact K | exact L].
Defined.

(** X4 at the same run, for the first descriptor. *)
Lemma descriptors_well_formed_witness :
  let cs : list (ApiCall Closure Special) :=
    [CallAtom (VNum 1) None; CallCreateStore; CallAtom (VNum 2) None] in
  let w : JsWorld := snd (execAll cs (loaded Closure Special [])) in
  let c : AtomConfig Closure Special :=
    mkConfig "atom1" (Some (VNum 1)) (Some DefaultRead) (Some DefaultWrite)
             None in
  lookup 0 w = Some c /\
  readOf closureCall 0 w <> None /\
  (init c <> None -> forall args, writeOf closureCall 0 args w <> None).
Proof.
  intros cs w c.
  destruct (@descriptors_well_formed Closure Special Memory closureCall
              [] cs 0 c eq_refl) as (_ & _ & R & W).
  split; [reflexivity|]. split; [exact R | exact W].
Defined.

(** X5 at the same run, for its two descriptors. *)
Lemma renderings_identify_atoms_witness :
  let cs : list (ApiCall Closure Special) :=
    [CallAtom (VNum 1) None; CallCreateStore; CallAtom (VNum 2) None] in
  let w : JsWorld := snd (execAll cs (loaded Closure Special [])) in
  let c1 : AtomConfig Closure Special :=
    mkConfig "atom1" (Some (VNum 1)) (Some DefaultRead) (Some DefaultWrite)
             None in
  let c2 : AtomConfig Closure Special :=
    mkConfig "atom2" (Some (VNum 2)) (Some DefaultRead) (Some DefaultWrite)
             None in
  lookup 0 w = Some c1 /\ lookup 1 w = Some c2 /\
  (N.of_nat 1 <= MAX_EXACT)%N /\ (N.of_nat 2 <= MAX_EXACT)%N /\
  0 <> 1 /\
  key c1 <> key c2 /\
  toString None c1 <> toString (Some "production") c2.
Proof.
  intros cs w c1 c2.
  assert (B1 : (N.of_nat 1 <= MAX_EXACT)%N) by (intros E; discriminate E).
  assert (B2 : (N.of_nat 2 <= MAX_EXACT)%N) by (intros E; discriminate E).
  assert (D : 0 <> 1) by discriminate.
  destruct (@renderings_identify_atoms Closure Special Memory [] cs 0 1
              c1 c2 None (Some "production") eq_refl eq_refl B1 B2 D)
    as [K T].
  split; [reflexivity|]. split; [reflexivity|].
  split; [exact B1|]. split; [exact B2|]. split; [exact D|].
  split; [exact K | exact T].
Defined.

(** X6 at [A = atom(1)] followed by a second [atom] and a label on the
    second descriptor: [A] is left exactly as it was. *)
Lemma descriptors_never_change_witness :
  let w := snd (atom (VNum 1) None freshWorld) in
  let cs : list (ApiCall Closure Special) :=
    [CallAtom (VFun (ReadsCell 0)) None; AssignDebugLabel 1 (Some "copy")] in
  let c : AtomConfig Closure Special :=
    mkConfig "atom1" (Some (VNum 1)) (Some DefaultRead) (Some DefaultWrite)
             None in
  lookup 0 w = Some c /\
  readOf closureCall 0 (snd (execAll cs w)) = readOf closureCall 0 w /\
  List.length (heap w) <= List.length (heap (snd (execAll cs w))).
Proof.
  intros w cs c.
  destruct (@descriptors_never_change Closure Special Memory closureCall
              cs w 0 c eq_refl) as (_ & R & _ & L & _).
  split; [reflexivity|]. split; [exact R | exact L].
Defined.

(** X9 at [P = atom(1)] called with the arguments [5, 6], and at
    [atom(r, prev => prev * 2)]. *)
Lemma write_method_arguments_witness :
  typeof_function (VNum 1 : JsValue) = false /\
  writeOf closureCall 0 [VNum 5; VNum 6] (snd (atom (VNum 1) None freshWorld))
  = writeOf closureCall 0 [VNum 5] (snd (atom (VNum 1) None freshWorld)) /\
  writeOf closureCall 0 [] (snd (atom (VNum 1) None freshWorld))
  = Some (SetE 0 [VUndefined] (@Ret _ _)).
Proof.
  destruct (@write_method_arguments Closure Special Memory closureCall
              (VNum 1) (Scale 2) [] freshWorld (VNum 5) [VNum 6] eq_refl)
    as (A & _ & B & _).
  split; [reflexivity|]. split; [exact A | exact B].
Defined.


(** ** The counter at 2^53 *)

Section Saturation.

Variables Fn Other Private : Type.

Local Abbreviation value := (Value Fn Other).
Local Abbreviation world := (World Fn Other Private).




End Saturation.

